(** * Snowball option valuation: a shallow embedding of [snowball_option]

    The notebook [snowball_option-demo.ipynb] defines one function,
    [snowball_option(S, X, T, r, q, sigma, k, p, n_simulations)].  It
    computes a Black-Scholes-Merton call price, runs a loop of
    [n_simulations] single draws and blends the two.

    Numbers are IEEE doubles in the source.  They are modelled here as real
    numbers extended with the three special values the code can produce
    ([inf], [-inf], [nan]); arithmetic on finite values is exact (rounding,
    overflow and the sign of zero are not modelled).  Python exceptions are
    modelled by an error monad. *)

From Stdlib Require Import Reals Lra Lia List ZArith.
Import ListNotations.
Local Open Scope R_scope.

(** ** The standard normal distribution

    [scipy.stats.norm.cdf] is the cumulative distribution function of the
    standard normal law: the integral of the density from minus infinity,
    over the integral on the whole line.  Both improper integrals are
    least upper bounds of integrals over bounded intervals. *)

Definition gauss (t : R) : R := exp (- (t * t) / 2).

Lemma gauss_pos t : 0 < gauss t.
Proof. apply exp_pos. Qed.

Lemma gauss_le_1 t : gauss t <= 1.
Proof.
  unfold gauss. rewrite <- exp_0.
  destruct (Req_dec (t * t) 0) as [E | E].
  - rewrite E. replace (- 0 / 2) with 0 by lra. lra.
  - left. apply exp_increasing. pose proof (Rle_0_sqr t) as H. unfold Rsqr in H. lra.
Qed.

Lemma derivable_pt_lim_gauss t : derivable_pt_lim gauss t (- t * gauss t).
Proof.
  assert (Hin : derivable_pt_lim (fun u => - (u * u) / 2) t (- t)).
  { replace (- t) with ((-1 / 2) * (1 * t + t * 1)) by lra.
    apply (derivable_pt_lim_ext (mult_real_fct (-1 / 2) (mult_fct id id))).
    - intros u. unfold mult_real_fct, mult_fct, id. lra.
    - apply derivable_pt_lim_scal. apply derivable_pt_lim_mult; apply derivable_pt_lim_id. }
  replace (- t * gauss t) with (exp (- (t * t) / 2) * - t) by (unfold gauss; lra).
  apply (derivable_pt_lim_comp (fun u => - (u * u) / 2) exp t); [exact Hin|].
  apply derivable_pt_lim_exp.
Qed.

Lemma derivable_pt_gauss t : derivable_pt gauss t.
Proof. exists (- t * gauss t). apply derivable_pt_lim_gauss. Qed.

Lemma continuity_gauss : continuity gauss.
Proof. intros t. apply derivable_continuous_pt, derivable_pt_gauss. Qed.

(** moment c t = c * t * gauss t, the derivative of - c * gauss *)
Definition moment (c t : R) : R := c * t * gauss t.

Lemma derivable_pt_lim_primitive_moment c t :
  derivable_pt_lim (fun u => - c * gauss u) t (moment c t).
Proof.
  replace (moment c t) with (- c * (- t * gauss t)) by (unfold moment; lra).
  apply (derivable_pt_lim_scal gauss (- c) t). apply derivable_pt_lim_gauss.
Qed.

Lemma continuity_moment c : continuity (moment c).
Proof.
  intros t. unfold moment.
  apply (continuity_pt_mult (fun u => c * u) gauss).
  - apply (continuity_pt_mult (fun _ => c) (fun u => u)).
    + apply continuity_pt_const. intros u v. reflexivity.
    + apply derivable_continuous_pt. apply derivable_pt_id.
  - apply continuity_gauss.
Qed.

(** integral of a continuous function over [a, b]; 0 when b < a *)
Definition cint (f : R -> R) (Hf : continuity f) (a b : R) : R :=
  match Rle_dec a b with
  | left Hab => RiemannInt (@continuity_implies_RiemannInt f a b Hab (fun x _ => Hf x))
  | right _ => 0
  end.

Lemma cint_eq f Hf a b (pr : Riemann_integrable f a b) :
  a <= b -> cint f Hf a b = RiemannInt pr.
Proof.
  intros Hab. unfold cint. destruct (Rle_dec a b) as [H | H]; [|contradiction].
  apply RiemannInt_P5.
Qed.

Lemma cint_refl f Hf a : cint f Hf a a = 0.
Proof.
  rewrite (cint_eq f Hf a a (RiemannInt_P7 f a)) by lra. apply RiemannInt_P9.
Qed.

Lemma cint_chasles f Hf a b c :
  a <= b -> b <= c -> cint f Hf a b + cint f Hf b c = cint f Hf a c.
Proof.
  intros Hab Hbc.
  assert (Hac : a <= c) by lra.
  pose (p1 := @continuity_implies_RiemannInt f a b Hab (fun x _ => Hf x)).
  pose (p2 := @continuity_implies_RiemannInt f b c Hbc (fun x _ => Hf x)).
  pose (p3 := @continuity_implies_RiemannInt f a c Hac (fun x _ => Hf x)).
  rewrite (cint_eq f Hf a b p1), (cint_eq f Hf b c p2), (cint_eq f Hf a c p3) by assumption.
  apply RiemannInt_P26.
Qed.

Lemma cint_le f g Hf Hg a b :
  a <= b -> (forall x, a < x < b -> f x <= g x) ->
  cint f Hf a b <= cint g Hg a b.
Proof.
  intros Hab Hfg.
  pose (p1 := @continuity_implies_RiemannInt f a b Hab (fun x _ => Hf x)).
  pose (p2 := @continuity_implies_RiemannInt g a b Hab (fun x _ => Hg x)).
  rewrite (cint_eq f Hf a b p1), (cint_eq g Hg a b p2) by assumption.
  apply RiemannInt_P19; assumption.
Qed.

Lemma cint_bounds f Hf a b l u :
  a <= b -> (forall x, a < x < b -> l <= f x <= u) ->
  l * (b - a) <= cint f Hf a b <= u * (b - a).
Proof.
  intros Hab Hb.
  pose (p1 := @continuity_implies_RiemannInt f a b Hab (fun x _ => Hf x)).
  rewrite (cint_eq f Hf a b p1) by assumption.
  apply RiemannInt_const_bound; assumption.
Qed.

(** fundamental theorem: the integral of a derivative *)
Lemma cint_derivative f Hf g a b :
  a <= b -> (forall x, derivable_pt_lim g x (f x)) ->
  cint f Hf a b = g b - g a.
Proof.
  intros Hab Hg.
  assert (C0 : forall x, a <= x <= b -> continuity_pt f x) by (intros; apply Hf).
  pose (p := @continuity_implies_RiemannInt f a b Hab (fun x _ => Hf x)).
  rewrite (cint_eq f Hf a b p) by assumption.
  rewrite (RiemannInt_P20 Hab (FTC_P1 Hab C0) p).
  assert (A1 := RiemannInt_P29 Hab C0).
  assert (A2 : antiderivative f g a b).
  { split; [|assumption]. intros x _.
    exists (exist _ (f x) (Hg x)). reflexivity. }
  destruct (antiderivative_Ucte f _ _ a b A1 A2) as [C HC].
  rewrite (HC b), (HC a) by lra. ring.
Qed.

Definition Gint : R -> R -> R := cint gauss continuity_gauss.
Definition Mint (c : R) : R -> R -> R := cint (moment c) (continuity_moment c).

Lemma Gint_bounds a b : a <= b -> 0 <= Gint a b <= b - a.
Proof.
  intros Hab.
  destruct (cint_bounds gauss continuity_gauss a b 0 1 Hab) as [H1 H2].
  - intros x _. split; [left; apply gauss_pos | apply gauss_le_1].
  - fold (Gint a b) in H1, H2. lra.
Qed.

Lemma Gint_nonneg a b : 0 <= Gint a b.
Proof.
  destruct (Rle_dec a b) as [H | H].
  - apply Gint_bounds, H.
  - unfold Gint, cint. destruct (Rle_dec a b); [contradiction | lra].
Qed.

Lemma Gint_refl a : Gint a a = 0.
Proof. apply cint_refl. Qed.

Lemma Gint_chasles a b c : a <= b -> b <= c -> Gint a b + Gint b c = Gint a c.
Proof. apply cint_chasles. Qed.

Lemma Gint_mono a a' b b' :
  a' <= a -> a <= b -> b <= b' -> Gint a b <= Gint a' b'.
Proof.
  intros H1 H2 H3.
  rewrite <- (Gint_chasles a' a b') by lra.
  rewrite <- (Gint_chasles a b b') by lra.
  pose proof (Gint_nonneg a' a). pose proof (Gint_nonneg b b'). lra.
Qed.

Lemma Mint_val c a b : a <= b -> Mint c a b = c * gauss a - c * gauss b.
Proof.
  intros Hab. unfold Mint.
  rewrite (cint_derivative (moment c) (continuity_moment c) (fun u => - c * gauss u) a b Hab).
  - lra.
  - intros x. apply derivable_pt_lim_primitive_moment.
Qed.

(** lower tail: the integral of [gauss] over [a, y] is at most
    [gauss y / (- y)] when [y < 0] *)
Lemma lower_tail a y : a <= y -> y < 0 -> Gint a y <= gauss y / (- y).
Proof.
  intros Hay Hy.
  apply Rle_trans with (Mint (/ y) a y).
  - apply cint_le; [assumption|]. intros t [Ht1 Ht2]. unfold moment.
    pose proof (gauss_pos t) as Hg.
    assert (1 <= / y * t).
    { assert (Hy' : 0 < - y) by lra.
      replace (/ y * t) with ((- t) / (- y)) by (field; lra).
      apply (Rmult_le_reg_r (- y)); [assumption|].
      replace (- t / - y * - y) with (- t) by (field; lra). lra. }
    nra.
  - rewrite Mint_val by assumption.
    pose proof (gauss_pos a) as Ha. pose proof (gauss_pos y) as Hgy.
    assert (Hi : / y < 0) by (apply Rinv_lt_0_compat; assumption).
    replace (gauss y / - y) with (- (/ y * gauss y)) by (field; lra).
    nra.
Qed.

(** upper tail: the integral of [gauss] over [u, b] is at most
    [gauss u / u] when [0 < u] *)
Lemma upper_tail u b : 0 < u -> u <= b -> Gint u b <= gauss u / u.
Proof.
  intros Hu Hub.
  apply Rle_trans with (Mint (/ u) u b).
  - apply cint_le; [assumption|]. intros t [Ht1 Ht2]. unfold moment.
    pose proof (gauss_pos t) as Hg.
    assert (1 <= / u * t).
    { apply (Rmult_le_reg_r u); [assumption|].
      replace (/ u * t * u) with t by (field; lra). lra. }
    nra.
  - rewrite Mint_val by assumption.
    pose proof (gauss_pos b) as Hb. pose proof (gauss_pos u) as Hgu.
    assert (Hi : 0 < / u) by (apply Rinv_0_lt_compat; assumption).
    unfold Rdiv. nra.
Qed.

Lemma Gint_le_4 a b : Gint a b <= 4.
Proof.
  destruct (Rle_dec a b) as [Hab | Hab].
  2:{ unfold Gint, cint. destruct (Rle_dec a b); [contradiction | lra]. }
  apply Rle_trans with (Gint (Rmin a (-1)) (Rmax b 1)).
  { apply Gint_mono; [apply Rmin_l | assumption | apply Rmax_l]. }
  assert (H1 : Rmin a (-1) <= -1) by apply Rmin_r.
  assert (H2 : 1 <= Rmax b 1) by apply Rmax_r.
  rewrite <- (Gint_chasles (Rmin a (-1)) (-1) (Rmax b 1)) by lra.
  rewrite <- (Gint_chasles (-1) 1 (Rmax b 1)) by lra.
  pose proof (lower_tail (Rmin a (-1)) (-1) H1 ltac:(lra)) as T1.
  pose proof (upper_tail 1 (Rmax b 1) ltac:(lra) H2) as T2.
  pose proof (Gint_bounds (-1) 1 ltac:(lra)) as T3.
  pose proof (gauss_le_1 1). pose proof (gauss_le_1 (-1)).
  replace (- -1) with 1 in T1 by lra.
  unfold Rdiv in T1, T2. rewrite Rinv_1 in T1, T2. lra.
Qed.

(** ** The improper integrals, as least upper bounds *)

Definition lower_set (x v : R) : Prop := exists a, a <= x /\ v = Gint a x.
Definition total_set (v : R) : Prop := exists a b, a <= b /\ v = Gint a b.

Lemma lower_set_bound x : bound (lower_set x).
Proof. exists 4. intros v [a [_ ->]]. apply Gint_le_4. Qed.

Lemma lower_set_inhabited x : exists v, lower_set x v.
Proof. exists (Gint x x), x. split; [lra | reflexivity]. Qed.

Lemma total_set_bound : bound total_set.
Proof. exists 4. intros v [a [b [_ ->]]]. apply Gint_le_4. Qed.

Lemma total_set_inhabited : exists v, total_set v.
Proof. exists (Gint 0 0), 0, 0. split; [lra | reflexivity]. Qed.

(** the integral of [gauss] from minus infinity to [x] *)
Definition lower_mass (x : R) : R :=
  proj1_sig (completeness (lower_set x) (lower_set_bound x) (lower_set_inhabited x)).

(** the integral of [gauss] over the whole line *)
Definition total_mass : R :=
  proj1_sig (completeness total_set total_set_bound total_set_inhabited).

(** The standard normal cumulative distribution function. *)
Definition Phi (x : R) : R := lower_mass x / total_mass.

(** ** Doubles with special values *)

Inductive float64 : Type :=
| Fin (x : R)
| PInf
| NInf
| NaN.

Inductive sign : Type := Neg | Zero | Pos.

Definition Rsign (x : R) : sign :=
  match total_order_T x 0 with
  | inleft (left _) => Neg
  | inleft (right _) => Zero
  | inright _ => Pos
  end.

Definition sign_opp (s : sign) : sign :=
  match s with Neg => Pos | Zero => Zero | Pos => Neg end.

(** [inf] carrying the sign [s]; [0 * inf] and [0 / 0] are [nan]. *)
Definition signed_inf (s : sign) : float64 :=
  match s with Neg => NInf | Zero => NaN | Pos => PInf end.

Definition fneg (a : float64) : float64 :=
  match a with
  | Fin x => Fin (- x)
  | PInf => NInf
  | NInf => PInf
  | NaN => NaN
  end.

Definition fadd (a b : float64) : float64 :=
  match a, b with
  | Fin x, Fin y => Fin (x + y)
  | NaN, _ | _, NaN => NaN
  | PInf, NInf | NInf, PInf => NaN
  | PInf, _ | _, PInf => PInf
  | NInf, _ | _, NInf => NInf
  end.

Definition fsub (a b : float64) : float64 := fadd a (fneg b).

Definition fmul (a b : float64) : float64 :=
  match a, b with
  | Fin x, Fin y => Fin (x * y)
  | NaN, _ | _, NaN => NaN
  | Fin x, PInf | PInf, Fin x => signed_inf (Rsign x)
  | Fin x, NInf | NInf, Fin x => signed_inf (sign_opp (Rsign x))
  | PInf, PInf | NInf, NInf => PInf
  | PInf, NInf | NInf, PInf => NInf
  end.

(** numpy division: a zero divisor gives [inf] or [nan], never an exception
    (a zero divisor is taken as [+0]). *)
Definition fdiv (a b : float64) : float64 :=
  match a, b with
  | NaN, _ | _, NaN => NaN
  | Fin x, Fin y =>
      match Rsign y with
      | Zero => signed_inf (Rsign x)
      | _ => Fin (x / y)
      end
  | Fin _, PInf | Fin _, NInf => Fin 0
  | PInf, Fin y => match Rsign y with Neg => NInf | _ => PInf end
  | NInf, Fin y => match Rsign y with Neg => PInf | _ => NInf end
  | _, _ => NaN
  end.

Declare Scope float64_scope.
Delimit Scope float64_scope with fl.
Bind Scope float64_scope with float64.
Infix "+" := fadd : float64_scope.
Infix "-" := fsub : float64_scope.
Infix "*" := fmul : float64_scope.
Infix "/" := fdiv : float64_scope.

(** [np.log]: [-inf] at zero, [nan] below. *)
Definition np_log (a : float64) : float64 :=
  match a with
  | Fin x =>
      match Rsign x with
      | Pos => Fin (ln x)
      | Zero => NInf
      | Neg => NaN
      end
  | PInf => PInf
  | NInf => NaN
  | NaN => NaN
  end.

(** [np.sqrt]: [nan] below zero. *)
Definition np_sqrt (a : float64) : float64 :=
  match a with
  | Fin x =>
      match Rsign x with
      | Neg => NaN
      | _ => Fin (sqrt x)
      end
  | PInf => PInf
  | NInf => NaN
  | NaN => NaN
  end.

Definition np_exp (a : float64) : float64 :=
  match a with
  | Fin x => Fin (exp x)
  | PInf => PInf
  | NInf => Fin 0
  | NaN => NaN
  end.

(** [scipy.stats.norm.cdf]. *)
Definition norm_cdf (a : float64) : float64 :=
  match a with
  | Fin x => Fin (Phi x)
  | PInf => Fin 1
  | NInf => Fin 0
  | NaN => NaN
  end.

(** [np.maximum] propagates [nan]. *)
Definition np_maximum (a b : float64) : float64 :=
  match a, b with
  | NaN, _ | _, NaN => NaN
  | PInf, _ | _, PInf => PInf
  | NInf, y => y
  | x, NInf => x
  | Fin x, Fin y => Fin (Rmax x y)
  end.

(** ** Exceptions *)

Inductive exn : Type :=
| ZeroDivisionError
| ValueError
| IndexError.

Inductive res (A : Type) : Type :=
| Ok (a : A)
| Raise (e : exn).
Arguments Ok {A} a.
Arguments Raise {A} e.

Definition bind {A B : Type} (m : res A) (f : A -> res B) : res B :=
  match m with
  | Ok a => f a
  | Raise e => Raise e
  end.

Notation "x <- m ;; f" := (bind m (fun x => f))
  (at level 61, m at next level, right associativity).
Notation "' pat <- m ;; f" := (bind m (fun x => match x with pat => f end))
  (at level 61, pat pattern, m at next level, right associativity).

(** Python's [/] on floats raises on a zero divisor. *)
Definition py_div (a : float64) (y : R) : res float64 :=
  match Rsign y with
  | Zero => Raise ZeroDivisionError
  | _ => Ok (a / Fin y)%fl
  end.

(** ** Arrays *)

Definition array := list float64.

(** [np.zeros(n)] rejects a negative length. *)
Definition np_zeros (n : Z) : res array :=
  if (n <? 0)%Z then Raise ValueError else Ok (repeat (Fin 0) (Z.to_nat n)).

(** [a[i] = v] *)
Fixpoint array_set (a : array) (i : nat) (v : float64) : res array :=
  match a, i with
  | [], _ => Raise IndexError
  | _ :: t, O => Ok (v :: t)
  | h :: t, S i' => t' <- array_set t i' v ;; Ok (h :: t')
  end.

(** [c * a] for a scalar [c] *)
Definition array_scale (c : float64) (a : array) : array :=
  map (fmul c) a.

(** [a + b], elementwise; the two arrays have the same length here. *)
Definition array_add (a b : array) : array :=
  map (fun ab => (fst ab + snd ab)%fl) (combine a b).

(** [np.maximum(a, c)] for a scalar [c] *)
Definition array_maximum (a : array) (c : float64) : array :=
  map (fun x => np_maximum x c) a.

Definition array_sum (a : array) : float64 :=
  fold_right fadd (Fin 0) a.

(** [np.mean]: the sum over the length, [nan] for an empty array. *)
Definition np_mean (a : array) : float64 :=
  (array_sum a / Fin (INR (length a)))%fl.

(** ** The random source

    [np.random.normal(loc, scale)] returns [loc + scale * z] for the next
    standard normal variate [z] of the generator and rejects a negative
    [scale]. *)
Definition np_random_normal (loc scale : float64) (z : R) : res float64 :=
  match scale with
  | NInf => Raise ValueError
  | Fin s =>
      match Rsign s with
      | Neg => Raise ValueError
      | _ => Ok (loc + scale * Fin z)%fl
      end
  | _ => Ok (loc + scale * Fin z)%fl
  end.

(** [for i in range(n): st = body i st] *)
Fixpoint for_range {St : Type} (body : nat -> St -> res St)
    (start count : nat) (st : St) : res St :=
  match count with
  | O => Ok st
  | S c => st' <- body start st ;; for_range body (S start) c st'
  end.

(** ** snowball_option *)

Section Source.

Variables (S X T r q sigma k p : R) (n_simulations : Z).

(** The realisation of the generator: [draw i] is the standard normal
    variate consumed by the [i]-th call, one call per iteration. *)
Variable draw : nat -> R.

(** Lines 54-56. *)
Definition call_price : res float64 :=
  sx <- py_div (Fin S) X ;;
  let d1 := ((np_log sx + Fin ((r - q + 0.5 * sigma ^ 2) * T))
             / (Fin sigma * np_sqrt (Fin T)))%fl in
  let d2 := (d1 - Fin sigma * np_sqrt (Fin T))%fl in
  Ok (Fin S * np_exp (Fin (- q * T)) * norm_cdf d1
      - Fin X * np_exp (Fin (- r * T)) * norm_cdf d2)%fl.

(** The remaining maturity [T - i * T / n_simulations] of iteration [i]. *)
Definition remaining_maturity (i : nat) : R :=
  T - INR i * T / IZR n_simulations.

(** Lines 63-68: the draw of iteration [i], giving [(S_i, value_i)]. *)
Definition simulate_draw (i : nat) : res (float64 * float64) :=
  r_i <- np_random_normal (Fin ((r - 0.5 * sigma ^ 2) * T / 365))
           (Fin sigma * np_sqrt (Fin (T / 365)))%fl (draw i) ;;
  let S_i := (Fin S * (Fin 1 + Fin k * r_i))%fl in
  let tau := remaining_maturity i in
  sx <- py_div S_i X ;;
  let d1_i := ((np_log sx + Fin ((r - q + 0.5 * sigma ^ 2) * tau))
               / (Fin sigma * np_sqrt (Fin tau)))%fl in
  let d2_i := (d1_i - Fin sigma * np_sqrt (Fin tau))%fl in
  let value_i :=
    (S_i * np_exp (Fin (- q * tau)) * norm_cdf d1_i
     - Fin X * np_exp (Fin (- r * tau)) * norm_cdf d2_i)%fl in
  Ok (S_i, value_i).

(** Lines 62-71: one iteration, storing into [prices[i]] and [values[i]]. *)
Definition loop_body (i : nat) (st : array * array) : res (array * array) :=
  let '(prices, values) := st in
  '(S_i, value_i) <- simulate_draw i ;;
  prices' <- array_set prices i S_i ;;
  values' <- array_set values i value_i ;;
  Ok (prices', values').

(** Lines 59-71. *)
Definition simulate : res (array * array) :=
  prices <- np_zeros n_simulations ;;
  values <- np_zeros n_simulations ;;
  for_range loop_body 0 (Z.to_nat n_simulations) (prices, values).

(** Line 74, the payoff array [np.maximum(k * prices + (1 - k) * values, 0)]. *)
Definition payoffs (prices values : array) : array :=
  array_maximum
    (array_add (array_scale (Fin k) prices) (array_scale (Fin (1 - k)) values))
    (Fin 0).

(** Line 74. *)
Definition blend (call : float64) (prices values : array) : float64 :=
  (Fin (1 - p) * call + Fin p * np_mean (payoffs prices values))%fl.

Definition snowball_option : res float64 :=
  call <- call_price ;;
  '(prices, values) <- simulate ;;
  Ok (blend call prices values).

End Source.

(** ** The closed forms of the specification *)

Definition bsm_d1 (S X T r q sigma : R) : R :=
  (ln (S / X) + (r - q + 0.5 * sigma ^ 2) * T) / (sigma * sqrt T).

Definition bsm_d2 (S X T r q sigma : R) : R :=
  bsm_d1 S X T r q sigma - sigma * sqrt T.

(** The Black-Scholes-Merton value of a European call. *)
Definition bsm_call (S X T r q sigma : R) : R :=
  S * exp (- q * T) * Phi (bsm_d1 S X T r q sigma)
  - X * exp (- r * T) * Phi (bsm_d2 S X T r q sigma).

(** Mean and standard deviation of the variate of one draw. *)
Definition draw_mean (T r sigma : R) : R := (r - 0.5 * sigma ^ 2) * T / 365.
Definition draw_sd (T sigma : R) : R := sigma * sqrt (T / 365).

(** [r_i], [S_i] and the payoff of one draw, over the reals. *)
Definition draw_return (T r sigma : R) (draw : nat -> R) (i : nat) : R :=
  draw_mean T r sigma + draw_sd T sigma * draw i.

Definition draw_price (S T r sigma k : R) (draw : nat -> R) (i : nat) : R :=
  S * (1 + k * draw_return T r sigma draw i).

Definition Rsum (l : list R) : R := fold_right Rplus 0 l.

Definition Rmean (l : list R) : R := Rsum l / INR (length l).





(** One value of the payoff array of line 74. *)
Definition payoff (k : R) (price value : float64) : float64 :=
  np_maximum (Fin k * price + Fin (1 - k) * value)%fl (Fin 0).

(** [value_i] as the loop computes it: lines 54-56 at [S_i] and the
    remaining maturity. *)
Definition draw_value (S X T r q sigma k : R) (n_simulations : Z)
    (draw : nat -> R) (i : nat) : float64 :=
  match call_price (draw_price S T r sigma k draw i) X
          (remaining_maturity T n_simulations i) r q sigma with
  | Ok v => v
  | Raise _ => NaN
  end.

Definition float_value (a : float64) : R :=
  match a with
  | Fin x => x
  | _ => 0
  end.

(** The payoff of one draw over the reals. *)
Definition draw_payoff (S X T r q sigma k : R) (n_simulations : Z)
    (draw : nat -> R) (i : nat) : R :=
  Rmax (k * draw_price S T r sigma k draw i
        + (1 - k) * float_value (draw_value S X T r q sigma k n_simulations draw i))
       0.

(** No draw makes [S_i] negative. *)
Definition no_negative_price (T r sigma k : R) (n_simulations : Z)
    (draw : nat -> R) : Prop :=
  forall i, (i < Z.to_nat n_simulations)%nat ->
            0 <= 1 + k * draw_return T r sigma draw i.

(** The arguments the specification calls valid. *)
Definition valid_inputs (S X T sigma : R) (n_simulations : Z) : Prop :=
  0 < S /\ 0 < X /\ 0 < T /\ 0 < sigma /\ (1 <= n_simulations)%Z.



(** * Properties *)

(** ** The normal distribution *)

Lemma lower_mass_lub x : is_lub (lower_set x) (lower_mass x).
Proof. unfold lower_mass. apply proj2_sig. Qed.

Lemma total_mass_lub : is_lub total_set total_mass.
Proof. unfold total_mass. apply proj2_sig. Qed.

Lemma lower_mass_ub a x : a <= x -> Gint a x <= lower_mass x.
Proof.
  intros Hax. destruct (lower_mass_lub x) as [Hub Hl].
  apply Hub. exists a. split; [assumption | reflexivity].
Qed.

Lemma lower_mass_least x M :
  (forall a, a <= x -> Gint a x <= M) -> lower_mass x <= M.
Proof.
  intros HM. destruct (lower_mass_lub x) as [Hub Hl].
  apply Hl. intros v [a [Ha ->]]. apply HM, Ha.
Qed.

Lemma total_mass_ub a b : a <= b -> Gint a b <= total_mass.
Proof.
  intros Hab. destruct total_mass_lub as [Hub Hl].
  apply Hub. exists a, b. split; [assumption | reflexivity].
Qed.


Lemma lower_mass_nonneg x : 0 <= lower_mass x.
Proof. rewrite <- (Gint_refl x). apply lower_mass_ub. lra. Qed.


Lemma gauss_ge_half_on_unit t : 0 < t < 1 -> / 2 <= gauss t.
Proof.
  intros [H0 H1]. unfold gauss.
  apply Rle_trans with (exp (- (1 / 2))).
  - assert (H : exp (1 / 2) <= 2).
    { assert (Hsq : exp (1 / 2) * exp (1 / 2) = exp 1).
      { rewrite <- exp_plus. f_equal. lra. }
      pose proof exp_le_3 as H3. pose proof (exp_pos (1 / 2)) as Hp.
      apply Rnot_lt_le. intros Hlt.
      assert (2 * 2 < exp (1 / 2) * exp (1 / 2)).
      { apply Rmult_le_0_lt_compat; lra. }
      lra. }
    rewrite exp_Ropp. apply Rinv_le_contravar; [apply exp_pos | assumption].
  - destruct (Req_dec (- (1 / 2)) (- (t * t) / 2)) as [E | E].
    + rewrite E. lra.
    + left. apply exp_increasing. nra.
Qed.

Lemma Gint_unit_lower : / 2 <= Gint 0 1.
Proof.
  destruct (cint_bounds gauss continuity_gauss 0 1 (/ 2) 1 ltac:(lra)) as [H1 _].
  - intros x Hx. split; [apply gauss_ge_half_on_unit, Hx | apply gauss_le_1].
  - fold (Gint 0 1) in H1. lra.
Qed.

Lemma total_mass_pos : 0 < total_mass.
Proof.
  pose proof (total_mass_ub 0 1 ltac:(lra)). pose proof Gint_unit_lower. lra.
Qed.

(** Chasles for the lower mass *)
Lemma lower_mass_split y x : y <= x -> lower_mass x = lower_mass y + Gint y x.
Proof.
  intros Hyx. apply Rle_antisym.
  - apply lower_mass_least. intros a Ha.
    destruct (Rle_dec a y) as [Hay | Hay].
    + rewrite <- (Gint_chasles a y x) by assumption.
      pose proof (lower_mass_ub a y Hay). lra.
    + pose proof (Gint_mono a y x x ltac:(lra) Ha ltac:(lra)).
      pose proof (lower_mass_nonneg y). lra.
  - assert (lower_mass y <= lower_mass x - Gint y x); [|lra].
    apply lower_mass_least. intros a Ha.
    pose proof (lower_mass_ub a x ltac:(lra)) as H.
    rewrite <- (Gint_chasles a y x) in H by assumption. lra.
Qed.

Lemma lower_mass_tail y : y < 0 -> lower_mass y <= gauss y / (- y).
Proof.
  intros Hy. apply lower_mass_least. intros a Ha. apply lower_tail; assumption.
Qed.

Lemma gauss_antitone y x : y * y <= x * x -> gauss x <= gauss y.
Proof.
  intros H. unfold gauss.
  destruct (Req_dec (x * x) (y * y)) as [E | E].
  - rewrite E. lra.
  - left. apply exp_increasing. lra.
Qed.

(** for [y <= x <= 0] and [y < 0], the integral of [gauss] over [y, x]
    is at least [(gauss x - gauss y) / (- y)] *)
Lemma Gint_lower_neg y x :
  y < 0 -> y <= x -> x <= 0 -> (gauss x - gauss y) / (- y) <= Gint y x.
Proof.
  intros Hy Hyx Hx.
  apply Rle_trans with (Mint (/ y) y x).
  - rewrite Mint_val by assumption. right. field. lra.
  - apply cint_le; [assumption|]. intros t [Ht1 Ht2]. unfold moment.
    pose proof (gauss_pos t) as Hg.
    assert (/ y * t <= 1).
    { replace (/ y * t) with ((- t) / (- y)) by (field; lra).
      apply (Rmult_le_reg_r (- y)); [lra|].
      replace (- t / - y * - y) with (- t) by (field; lra). lra. }
    nra.
Qed.

(** the ratio lower_mass / gauss is nondecreasing *)
Lemma lower_mass_ratio y x :
  y <= x -> lower_mass y * gauss x <= lower_mass x * gauss y.
Proof.
  intros Hyx. rewrite (lower_mass_split y x Hyx).
  pose proof (Gint_nonneg y x) as HG.
  pose proof (lower_mass_nonneg y) as HL.
  pose proof (gauss_pos y) as Hgy. pose proof (gauss_pos x) as Hgx.
  destruct (Rle_dec (gauss x) (gauss y)) as [Hle | Hgt].
  { nra. }
  apply Rnot_le_lt in Hgt.
  assert (Hy : y < 0).
  { apply Rnot_le_lt. intros H0.
    assert (gauss x <= gauss y) by (apply gauss_antitone; nra). lra. }
  pose proof (lower_mass_tail y Hy) as Htail.
  assert (Hkey : (gauss x - gauss y) / (- y) <= Gint y x).
  { destruct (Rle_dec x 0) as [Hx | Hx].
    - apply Gint_lower_neg; assumption.
    - apply Rnot_le_lt in Hx.
      apply Rle_trans with ((gauss 0 - gauss y) / (- y)).
      + unfold Rdiv. apply Rmult_le_compat_r.
        * left. apply Rinv_0_lt_compat. lra.
        * assert (gauss x <= gauss 0) by (apply gauss_antitone; nra). lra.
      + apply Rle_trans with (Gint y 0).
        * apply Gint_lower_neg; lra.
        * apply Gint_mono; lra. }
  assert (Hy' : 0 < - y) by lra.
  assert (Hd : 0 < gauss x - gauss y) by lra.
  assert (H1 : lower_mass y * (gauss x - gauss y)
               <= gauss y / - y * (gauss x - gauss y)).
  { apply Rmult_le_compat_r; lra. }
  assert (H2 : gauss y / - y * (gauss x - gauss y)
               = gauss y * ((gauss x - gauss y) / - y)) by (field; lra).
  assert (H3 : gauss y * ((gauss x - gauss y) / - y) <= gauss y * Gint y x).
  { apply Rmult_le_compat_l; lra. }
  lra.
Qed.



(** Mills ratio: Phi / gauss is nondecreasing. *)
Lemma Phi_ratio y x : y <= x -> Phi y * gauss x <= Phi x * gauss y.
Proof.
  intros Hyx. unfold Phi.
  pose proof (lower_mass_ratio y x Hyx) as H.
  pose proof total_mass_pos as HN.
  apply (Rmult_le_reg_r total_mass); [assumption|].
  replace (lower_mass y / total_mass * gauss x * total_mass)
    with (lower_mass y * gauss x) by (field; lra).
  replace (lower_mass x / total_mass * gauss y * total_mass)
    with (lower_mass x * gauss y) by (field; lra).
  assumption.
Qed.


(** ** The Black-Scholes-Merton closed form *)

(** The two discounted legs weigh the density equally. *)
Lemma bsm_density_balance S X T r q sigma :
  0 < S -> 0 < X -> 0 < T -> 0 < sigma ->
  S * exp (- q * T) * gauss (bsm_d1 S X T r q sigma)
  = X * exp (- r * T) * gauss (bsm_d2 S X T r q sigma).
Proof.
  intros HS HX HT Hs. unfold bsm_d2, bsm_d1, gauss.
  set (v := sigma * sqrt T).
  set (num := ln (S / X) + (r - q + 0.5 * sigma ^ 2) * T).
  assert (Hsq : 0 < sqrt T) by (apply sqrt_lt_R0; assumption).
  assert (Hv : 0 < v) by (unfold v; apply Rmult_lt_0_compat; assumption).
  assert (Hvv : v * v = sigma ^ 2 * T).
  { unfold v. replace (sigma * sqrt T * (sigma * sqrt T))
      with (sigma ^ 2 * (sqrt T * sqrt T)) by ring.
    rewrite sqrt_sqrt by lra. reflexivity. }
  assert (Hd : num / v * v = num) by (field; lra).
  assert (Hln : ln (S / X) = ln S - ln X).
  { unfold Rdiv. rewrite ln_mult; [| assumption | apply Rinv_0_lt_compat; assumption].
    rewrite ln_Rinv by assumption. ring. }
  rewrite <- (exp_ln S) at 1 by assumption.
  rewrite <- (exp_ln X) at 1 by assumption.
  rewrite <- !exp_plus. f_equal.
  replace ((num / v - v) * (num / v - v))
    with (num / v * (num / v) - 2 * (num / v * v) + v * v) by ring.
  rewrite Hd, Hvv. unfold num. rewrite Hln. lra.
Qed.

Lemma bsm_d2_le_d1 S X T r q sigma :
  0 < T -> 0 < sigma -> bsm_d2 S X T r q sigma <= bsm_d1 S X T r q sigma.
Proof.
  intros HT Hs. unfold bsm_d2.
  assert (0 < sqrt T) by (apply sqrt_lt_R0; assumption).
  assert (0 < sigma * sqrt T) by (apply Rmult_lt_0_compat; assumption).
  lra.
Qed.

(** A call is never worth less than nothing. *)
Lemma bsm_call_nonneg S X T r q sigma :
  0 < S -> 0 < X -> 0 < T -> 0 < sigma -> 0 <= bsm_call S X T r q sigma.
Proof.
  intros HS HX HT Hs. unfold bsm_call.
  pose proof (bsm_density_balance S X T r q sigma HS HX HT Hs) as Hbal.
  pose proof (Phi_ratio _ _ (bsm_d2_le_d1 S X T r q sigma HT Hs)) as Hm.
  set (d1 := bsm_d1 S X T r q sigma) in *.
  set (d2 := bsm_d2 S X T r q sigma) in *.
  set (a := S * exp (- q * T)) in *.
  set (b := X * exp (- r * T)) in *.
  assert (Ha : 0 < a) by (unfold a; apply Rmult_lt_0_compat; [assumption | apply exp_pos]).
  pose proof (gauss_pos d2) as Hg2.
  assert (H : 0 <= (a * Phi d1 - b * Phi d2) * gauss d2).
  { replace ((a * Phi d1 - b * Phi d2) * gauss d2)
      with (a * (Phi d1 * gauss d2) - Phi d2 * (b * gauss d2)) by ring.
    rewrite <- Hbal.
    replace (a * (Phi d1 * gauss d2) - Phi d2 * (a * gauss d1))
      with (a * (Phi d1 * gauss d2 - Phi d2 * gauss d1)) by ring.
    apply Rmult_le_pos; lra. }
  apply (Rmult_le_reg_r (gauss d2)); [assumption | lra].
Qed.

(** ** Arithmetic of doubles *)

Lemma Rsign_pos x : 0 < x -> Rsign x = Pos.
Proof.
  intros H. unfold Rsign.
  destruct (total_order_T x 0) as [[H0 | H0] | H0]; [lra | lra | reflexivity].
Qed.

Lemma Rsign_neg x : x < 0 -> Rsign x = Neg.
Proof.
  intros H. unfold Rsign.
  destruct (total_order_T x 0) as [[H0 | H0] | H0]; [reflexivity | lra | lra].
Qed.

Lemma Rsign_zero x : x = 0 -> Rsign x = Zero.
Proof.
  intros H. unfold Rsign.
  destruct (total_order_T x 0) as [[H0 | H0] | H0]; [lra | reflexivity | lra].
Qed.

Lemma Rsign_cases x :
  (x < 0 /\ Rsign x = Neg) \/ (x = 0 /\ Rsign x = Zero) \/ (0 < x /\ Rsign x = Pos).
Proof.
  destruct (total_order_T x 0) as [[H0 | H0] | H0].
  - left. split; [assumption | apply Rsign_neg, H0].
  - right. left. split; [assumption | apply Rsign_zero, H0].
  - right. right. split; [assumption | apply Rsign_pos, H0].
Qed.

Lemma fdiv_fin x y : y <> 0 -> (Fin x / Fin y)%fl = Fin (x / y).
Proof.
  intros Hy. simpl.
  destruct (Rsign_cases y) as [[_ E] | [[H0 _] | [_ E]]];
    [rewrite E; reflexivity | contradiction | rewrite E; reflexivity].
Qed.

Lemma py_div_ok a y : y <> 0 -> py_div a y = Ok (a / Fin y)%fl.
Proof.
  intros Hy. unfold py_div.
  destruct (Rsign_cases y) as [[_ E] | [[H0 _] | [_ E]]];
    [rewrite E; reflexivity | contradiction | rewrite E; reflexivity].
Qed.


Lemma np_log_pos x : 0 < x -> np_log (Fin x) = Fin (ln x).
Proof. intros H. simpl. rewrite Rsign_pos by assumption. reflexivity. Qed.

Lemma np_sqrt_pos x : 0 < x -> np_sqrt (Fin x) = Fin (sqrt x).
Proof. intros H. simpl. rewrite Rsign_pos by assumption. reflexivity. Qed.

Lemma np_sqrt_nonneg x : 0 <= x -> np_sqrt (Fin x) = Fin (sqrt x).
Proof.
  intros H. simpl.
  destruct (Rsign_cases x) as [[H0 _] | [[_ E] | [_ E]]];
    [lra | rewrite E; reflexivity | rewrite E; reflexivity].
Qed.

Lemma volatility_pos T sigma : 0 < T -> 0 < sigma -> 0 < sigma * sqrt T.
Proof.
  intros HT Hs. apply Rmult_lt_0_compat; [assumption | apply sqrt_lt_R0, HT].
Qed.

(** Lines 54-56 on valid arguments: the closed form, a finite number. *)
Lemma call_price_closed_form S X T r q sigma :
  0 < S -> 0 < X -> 0 < T -> 0 < sigma ->
  call_price S X T r q sigma = Ok (Fin (bsm_call S X T r q sigma)).
Proof.
  intros HS HX HT Hs. unfold call_price.
  rewrite py_div_ok by lra. rewrite fdiv_fin by lra. cbn [bind].
  rewrite np_log_pos by (apply Rdiv_lt_0_compat; assumption).
  rewrite np_sqrt_pos by assumption.
  pose proof (volatility_pos T sigma HT Hs) as Hv.
  cbn [fmul fadd]. rewrite fdiv_fin by lra.
  reflexivity.
Qed.

(** The same lines when the underlying is worth nothing: [log] gives
    [-inf], both distribution values are 0 and so is the price. *)
Lemma call_price_zero_spot X T r q sigma :
  0 < X -> 0 < T -> 0 < sigma ->
  call_price 0 X T r q sigma = Ok (Fin 0).
Proof.
  intros HX HT Hs. unfold call_price.
  rewrite py_div_ok by lra. rewrite fdiv_fin by lra. cbn [bind].
  replace (0 / X) with 0 by (field; lra).
  rewrite np_sqrt_pos by assumption.
  pose proof (volatility_pos T sigma HT Hs) as Hv.
  unfold np_log. rewrite (Rsign_zero 0) by reflexivity.
  cbn [fmul fadd fdiv fsub fneg]. rewrite (Rsign_pos _ Hv).
  cbn [fmul fadd fdiv fsub fneg norm_cdf np_exp].
  f_equal. f_equal. ring.
Qed.


(** ** The simulation loop *)

Lemma array_set_app (pre : array) (h : float64) (t : array) (v : float64) :
  array_set (pre ++ h :: t) (length pre) v = Ok (pre ++ v :: t).
Proof.
  induction pre as [| x pre IH]; simpl.
  - reflexivity.
  - rewrite IH. reflexivity.
Qed.

Lemma payoffs_map {A : Type} (k : R) (f g : A -> float64) (l : list A) :
  payoffs k (map f l) (map g l) = map (fun i => payoff k (f i) (g i)) l.
Proof.
  unfold payoffs, array_maximum, array_add, array_scale.
  induction l as [| a l IH]; simpl.
  - reflexivity.
  - f_equal. exact IH.
Qed.


Lemma payoffs_length (k : R) (prices values : array) :
  length prices = length values ->
  length (payoffs k prices values) = length prices.
Proof.
  intros Hlen. unfold payoffs, array_maximum, array_add, array_scale.
  rewrite !length_map, length_combine, !length_map. lia.
Qed.

Section Loop.

Variables (S X T r q sigma k : R) (n_simulations : Z) (draw : nat -> R).

Variables price value : nat -> float64.

Hypothesis draw_ok :
  forall i, simulate_draw S X T r q sigma k n_simulations draw i
            = Ok (price i, value i).

(** Iterations [start], ..., [start + count - 1] fill their own slots and
    leave the others alone. *)
Lemma for_range_fills (count : nat) :
  forall (start : nat) (pre_p pre_v rest_p rest_v : array),
    length pre_p = start -> length pre_v = start ->
    length rest_p = count -> length rest_v = count ->
    for_range (loop_body S X T r q sigma k n_simulations draw) start count
      (pre_p ++ rest_p, pre_v ++ rest_v)
    = Ok (pre_p ++ map price (seq start count),
          pre_v ++ map value (seq start count)).
Proof.
  induction count as [| count IH]; intros start pre_p pre_v rest_p rest_v Hp Hv Hrp Hrv.
  - destruct rest_p; [| discriminate]. destruct rest_v; [| discriminate]. reflexivity.
  - destruct rest_p as [| hp rest_p]; [discriminate |].
    destruct rest_v as [| hv rest_v]; [discriminate |].
    cbn [for_range]. unfold loop_body at 1.
    rewrite draw_ok. cbn [bind].
    rewrite <- Hp at 1. rewrite array_set_app. cbn [bind].
    rewrite <- Hv at 1. rewrite array_set_app. cbn [bind].
    replace (pre_p ++ price start :: rest_p) with ((pre_p ++ [price start]) ++ rest_p)
      by (rewrite <- app_assoc; reflexivity).
    replace (pre_v ++ value start :: rest_v) with ((pre_v ++ [value start]) ++ rest_v)
      by (rewrite <- app_assoc; reflexivity).
    rewrite IH.
    + cbn [seq map]. rewrite <- !app_assoc. reflexivity.
    + rewrite length_app. simpl. lia.
    + rewrite length_app. simpl. lia.
    + simpl in Hrp. lia.
    + simpl in Hrv. lia.
Qed.

Lemma simulate_fills :
  (0 <= n_simulations)%Z ->
  simulate S X T r q sigma k n_simulations draw
  = Ok (map price (seq 0 (Z.to_nat n_simulations)),
        map value (seq 0 (Z.to_nat n_simulations))).
Proof.
  intros Hn. unfold simulate, np_zeros.
  destruct (Z.ltb_spec n_simulations 0) as [H | _]; [lia |].
  cbn [bind].
  apply (for_range_fills (Z.to_nat n_simulations) 0%nat [] []);
    try reflexivity; apply repeat_length.
Qed.

End Loop.

Lemma draw_sd_pos T sigma : 0 < T -> 0 < sigma -> 0 < draw_sd T sigma.
Proof.
  intros HT Hs. unfold draw_sd. apply volatility_pos; [| assumption].
  apply Rdiv_lt_0_compat; lra.
Qed.

(** Line 63 on valid arguments: the variate of mean [draw_mean] and
    standard deviation [draw_sd]. *)
Lemma np_random_normal_valid T r sigma z :
  0 < T -> 0 < sigma ->
  np_random_normal (Fin ((r - 0.5 * sigma ^ 2) * T / 365))
    (Fin sigma * np_sqrt (Fin (T / 365)))%fl z
  = Ok (Fin (draw_mean T r sigma + draw_sd T sigma * z)).
Proof.
  intros HT Hs.
  rewrite np_sqrt_pos by (apply Rdiv_lt_0_compat; lra).
  cbn [fmul]. unfold np_random_normal.
  fold (draw_sd T sigma). rewrite (Rsign_pos _ (draw_sd_pos T sigma HT Hs)).
  reflexivity.
Qed.

(** Lines 63-68 are lines 54-56 at [S_i] and the remaining maturity. *)
Lemma simulate_draw_as_call_price S X T r q sigma k n_simulations draw i :
  0 < T -> 0 < sigma ->
  simulate_draw S X T r q sigma k n_simulations draw i
  = (v <- call_price (draw_price S T r sigma k draw i) X
            (remaining_maturity T n_simulations i) r q sigma ;;
     Ok (Fin (draw_price S T r sigma k draw i), v)).
Proof.
  intros HT Hs. unfold simulate_draw.
  rewrite np_random_normal_valid by assumption.
  cbn [bind fmul fadd]. unfold call_price, draw_price, draw_return.
  destruct (py_div _ X) as [sx | e]; reflexivity.
Qed.

Lemma call_price_no_raise S X T r q sigma :
  X <> 0 -> exists v, call_price S X T r q sigma = Ok v.
Proof.
  intros HX. unfold call_price. rewrite py_div_ok by assumption.
  cbn [bind]. eexists. reflexivity.
Qed.

Lemma simulate_draw_valid S X T r q sigma k n_simulations draw i :
  X <> 0 -> 0 < T -> 0 < sigma ->
  simulate_draw S X T r q sigma k n_simulations draw i
  = Ok (Fin (draw_price S T r sigma k draw i),
        draw_value S X T r q sigma k n_simulations draw i).
Proof.
  intros HX HT Hs. rewrite simulate_draw_as_call_price by assumption.
  unfold draw_value.
  destruct (call_price_no_raise (draw_price S T r sigma k draw i) X
              (remaining_maturity T n_simulations i) r q sigma HX) as [v Hv].
  rewrite Hv. reflexivity.
Qed.

Lemma simulate_valid S X T r q sigma k n_simulations draw :
  X <> 0 -> 0 < T -> 0 < sigma -> (0 <= n_simulations)%Z ->
  simulate S X T r q sigma k n_simulations draw
  = Ok (map (fun i => Fin (draw_price S T r sigma k draw i))
          (seq 0 (Z.to_nat n_simulations)),
        map (draw_value S X T r q sigma k n_simulations draw)
          (seq 0 (Z.to_nat n_simulations))).
Proof.
  intros HX HT Hs Hn.
  apply (simulate_fills S X T r q sigma k n_simulations draw
           (fun i => Fin (draw_price S T r sigma k draw i))
           (draw_value S X T r q sigma k n_simulations draw)); [| assumption].
  intros i. apply simulate_draw_valid; assumption.
Qed.

(** ** The remaining maturity *)

Lemma INR_lt_IZR (i : nat) (n : Z) : (i < Z.to_nat n)%nat -> INR i < IZR n.
Proof.
  intros H. rewrite INR_IZR_INZ. apply IZR_lt. lia.
Qed.


Lemma remaining_maturity_bounds T n i :
  0 < T -> (i < Z.to_nat n)%nat ->
  T / IZR n <= remaining_maturity T n i <= T.
Proof.
  intros HT Hi. unfold remaining_maturity.
  assert (Hn : 0 < IZR n).
  { apply Rle_lt_trans with (INR i); [apply pos_INR | apply INR_lt_IZR, Hi]. }
  assert (Hi1 : INR i + 1 <= IZR n).
  { rewrite INR_IZR_INZ. rewrite <- plus_IZR. apply IZR_le. lia. }
  pose proof (pos_INR i) as Hi0.
  assert (Hinv : 0 < / IZR n) by (apply Rinv_0_lt_compat, Hn).
  assert (E : T - INR i * T / IZR n = (IZR n - INR i) * (T * / IZR n)) by (field; lra).
  rewrite E. unfold Rdiv.
  assert (Hp : 0 < T * / IZR n) by (apply Rmult_lt_0_compat; assumption).
  split.
  - assert (1 * (T * / IZR n) <= (IZR n - INR i) * (T * / IZR n)).
    { apply Rmult_le_compat_r; lra. }
    lra.
  - assert ((IZR n - INR i) * (T * / IZR n) <= IZR n * (T * / IZR n)).
    { apply Rmult_le_compat_r; lra. }
    replace (IZR n * (T * / IZR n)) with T in H by (field; lra). lra.
Qed.

Lemma remaining_maturity_pos T n i :
  0 < T -> (i < Z.to_nat n)%nat -> 0 < remaining_maturity T n i.
Proof.
  intros HT Hi.
  destruct (remaining_maturity_bounds T n i HT Hi) as [H _].
  assert (Hn : 0 < IZR n).
  { apply Rle_lt_trans with (INR i); [apply pos_INR | apply INR_lt_IZR, Hi]. }
  assert (0 < T / IZR n) by (apply Rdiv_lt_0_compat; assumption).
  lra.
Qed.


(** ** The value of one draw *)

Lemma draw_value_positive S X T r q sigma k n draw i :
  0 < X -> 0 < T -> 0 < sigma -> (i < Z.to_nat n)%nat ->
  0 < draw_price S T r sigma k draw i ->
  draw_value S X T r q sigma k n draw i
  = Fin (bsm_call (draw_price S T r sigma k draw i) X
           (remaining_maturity T n i) r q sigma).
Proof.
  intros HX HT Hs Hi Hp. unfold draw_value.
  rewrite call_price_closed_form; auto using remaining_maturity_pos.
Qed.

Lemma draw_value_zero S X T r q sigma k n draw i :
  0 < X -> 0 < T -> 0 < sigma -> (i < Z.to_nat n)%nat ->
  draw_price S T r sigma k draw i = 0 ->
  draw_value S X T r q sigma k n draw i = Fin 0.
Proof.
  intros HX HT Hs Hi Hp. unfold draw_value. rewrite Hp.
  rewrite call_price_zero_spot; auto using remaining_maturity_pos.
Qed.


(** A draw whose price is not negative has a finite value that is not
    negative either. *)
Lemma draw_value_finite S X T r q sigma k n draw i :
  0 < X -> 0 < T -> 0 < sigma -> (i < Z.to_nat n)%nat ->
  0 <= draw_price S T r sigma k draw i ->
  exists v, draw_value S X T r q sigma k n draw i = Fin v /\ 0 <= v.
Proof.
  intros HX HT Hs Hi [Hp | Hp].
  - eexists. split; [apply draw_value_positive; assumption |].
    apply bsm_call_nonneg; auto using remaining_maturity_pos.
  - exists 0. split; [apply draw_value_zero; auto | lra].
Qed.


(** ** Sums and means *)

Lemma array_sum_fin (l : list R) : array_sum (map Fin l) = Fin (Rsum l).
Proof.
  induction l as [| x l IH]; [reflexivity |].
  change (array_sum (map Fin (x :: l))) with (Fin x + array_sum (map Fin l))%fl.
  rewrite IH. reflexivity.
Qed.

Lemma np_mean_fin (l : list R) :
  l <> [] -> np_mean (map Fin l) = Fin (Rmean l).
Proof.
  intros Hl. unfold np_mean, Rmean. rewrite array_sum_fin, length_map.
  apply fdiv_fin. destruct l as [| x l]; [contradiction |].
  apply not_0_INR. discriminate.
Qed.









(** Line 74 when the mean is a finite number. *)
Lemma blend_fin k p c prices values m :
  np_mean (payoffs k prices values) = Fin m ->
  blend k p (Fin c) prices values = Fin ((1 - p) * c + p * m).
Proof. intros Hm. unfold blend. rewrite Hm. reflexivity. Qed.










(** ** A run on valid arguments *)

Lemma seq_nonempty (n : Z) : (1 <= n)%Z -> seq 0 (Z.to_nat n) <> [].
Proof.
  intros Hn. destruct (Z.to_nat n) eqn:E; [lia | discriminate].
Qed.

(** The payoff array when no draw makes the price negative. *)
Lemma payoffs_finite S X T r q sigma k n draw :
  0 < S -> 0 < X -> 0 < T -> 0 < sigma ->
  no_negative_price T r sigma k n draw ->
  map (fun i => payoff k (Fin (draw_price S T r sigma k draw i))
                  (draw_value S X T r q sigma k n draw i))
    (seq 0 (Z.to_nat n))
  = map Fin (map (draw_payoff S X T r q sigma k n draw) (seq 0 (Z.to_nat n))).
Proof.
  intros HS HX HT Hs Hnn. rewrite map_map. apply map_ext_in.
  intros i Hi. apply in_seq in Hi.
  assert (Hp : 0 <= draw_price S T r sigma k draw i).
  { unfold draw_price. apply Rmult_le_pos; [lra | apply Hnn; lia]. }
  destruct (draw_value_finite S X T r q sigma k n draw i HX HT Hs ltac:(lia) Hp)
    as [v [Hv _]].
  unfold draw_payoff. rewrite Hv. reflexivity.
Qed.


(** The whole function on valid arguments. *)
Lemma snowball_option_valid S X T r q sigma k p n draw :
  0 < S -> 0 < X -> 0 < T -> 0 < sigma -> (0 <= n)%Z ->
  snowball_option S X T r q sigma k p n draw
  = Ok (blend k p (Fin (bsm_call S X T r q sigma))
          (map (fun i => Fin (draw_price S T r sigma k draw i)) (seq 0 (Z.to_nat n)))
          (map (draw_value S X T r q sigma k n draw) (seq 0 (Z.to_nat n)))).
Proof.
  intros HS HX HT Hs Hn. unfold snowball_option.
  rewrite call_price_closed_form by assumption. cbn [bind].
  rewrite simulate_valid by (assumption || lra). reflexivity.
Qed.

Lemma snowball_option_finite S X T r q sigma k p n draw :
  0 < S -> 0 < X -> 0 < T -> 0 < sigma -> (1 <= n)%Z ->
  no_negative_price T r sigma k n draw ->
  snowball_option S X T r q sigma k p n draw
  = Ok (Fin ((1 - p) * bsm_call S X T r q sigma
             + p * Rmean (map (draw_payoff S X T r q sigma k n draw)
                            (seq 0 (Z.to_nat n))))).
Proof.
  intros HS HX HT Hs Hn Hnn.
  rewrite snowball_option_valid by (assumption || lia). f_equal.
  apply blend_fin. rewrite payoffs_map.
  rewrite (payoffs_finite S X T r q sigma k n draw) by assumption.
  apply np_mean_fin. intros E. apply map_eq_nil in E.
  exact (seq_nonempty n Hn E).
Qed.


(** ** Runs outside the valid arguments *)

Lemma np_random_normal_no_raise T r sigma z :
  0 <= T -> 0 <= sigma ->
  exists x,
    np_random_normal (Fin ((r - 0.5 * sigma ^ 2) * T / 365))
      (Fin sigma * np_sqrt (Fin (T / 365)))%fl z = Ok (Fin x).
Proof.
  intros HT Hs.
  rewrite np_sqrt_nonneg by (apply Rmult_le_pos; lra).
  cbn [fmul]. unfold np_random_normal.
  assert (H : 0 <= sigma * sqrt (T / 365)).
  { apply Rmult_le_pos; [assumption | apply sqrt_pos]. }
  destruct (Rsign_cases (sigma * sqrt (T / 365))) as [[H0 _] | [[_ E] | [_ E]]];
    [lra | rewrite E; eexists; reflexivity | rewrite E; eexists; reflexivity].
Qed.

Lemma simulate_draw_no_raise S X T r q sigma k n draw i :
  X <> 0 -> 0 <= T -> 0 <= sigma ->
  exists pv, simulate_draw S X T r q sigma k n draw i = Ok pv.
Proof.
  intros HX HT Hs. unfold simulate_draw.
  destruct (np_random_normal_no_raise T r sigma (draw i) HT Hs) as [x Hx].
  rewrite Hx. cbn [bind]. rewrite py_div_ok by assumption. cbn [bind].
  eexists. reflexivity.
Qed.

Lemma simulate_no_raise S X T r q sigma k n draw :
  X <> 0 -> 0 <= T -> 0 <= sigma -> (0 <= n)%Z ->
  exists prices values,
    simulate S X T r q sigma k n draw = Ok (prices, values)
    /\ length prices = Z.to_nat n /\ length values = Z.to_nat n.
Proof.
  intros HX HT Hs Hn.
  pose (out := fun i => match simulate_draw S X T r q sigma k n draw i with
                        | Ok pv => pv
                        | Raise _ => (NaN, NaN)
                        end).
  exists (map (fun i => fst (out i)) (seq 0 (Z.to_nat n))),
         (map (fun i => snd (out i)) (seq 0 (Z.to_nat n))).
  split; [| rewrite !length_map, length_seq; split; reflexivity].
  apply simulate_fills; [| assumption].
  intros i. unfold out.
  destruct (simulate_draw_no_raise S X T r q sigma k n draw i HX HT Hs) as [[a b] E].
  rewrite E. reflexivity.
Qed.







(** ** Concrete draws *)





(** ** The blend of line 74 *)






(** ** The baseline price *)



(** ** One draw *)



(** ** Arguments that are not valid *)




(** ** Execution probability zero *)




(** ** Values that are not numbers *)




(** ** The maturity schedule *)



(** ** Snowball ratio zero *)

Lemma draw_price_zero_ratio S T r sigma draw i :
  draw_price S T r sigma 0 draw i = S.
Proof. unfold draw_price. ring. Qed.

Lemma no_negative_price_zero_ratio T r sigma n draw :
  no_negative_price T r sigma 0 n draw.
Proof. intros i _. lra. Qed.

Lemma draw_value_zero_ratio S X T r q sigma n draw i :
  0 < S -> 0 < X -> 0 < T -> 0 < sigma -> (i < Z.to_nat n)%nat ->
  draw_value S X T r q sigma 0 n draw i
  = Fin (bsm_call S X (remaining_maturity T n i) r q sigma).
Proof.
  intros HS HX HT Hs Hi.
  rewrite draw_value_positive; rewrite ?draw_price_zero_ratio; auto.
Qed.

Lemma draw_payoff_zero_ratio S X T r q sigma n draw i :
  0 < S -> 0 < X -> 0 < T -> 0 < sigma -> (i < Z.to_nat n)%nat ->
  draw_payoff S X T r q sigma 0 n draw i
  = bsm_call S X (remaining_maturity T n i) r q sigma.
Proof.
  intros HS HX HT Hs Hi. unfold draw_payoff.
  rewrite draw_value_zero_ratio by assumption. cbn [float_value].
  pose proof (bsm_call_nonneg S X (remaining_maturity T n i) r q sigma HS HX
                (remaining_maturity_pos T n i HT Hi) Hs) as Hv.
  rewrite Rmax_left by lra. ring.
Qed.

Lemma snowball_option_zero_ratio S X T r q sigma p n draw :
  0 < S -> 0 < X -> 0 < T -> 0 < sigma -> (1 <= n)%Z ->
  snowball_option S X T r q sigma 0 p n draw
  = Ok (Fin ((1 - p) * bsm_call S X T r q sigma
             + p * Rmean (map (fun i => bsm_call S X (remaining_maturity T n i) r q sigma)
                            (seq 0 (Z.to_nat n))))).
Proof.
  intros HS HX HT Hs Hn.
  rewrite snowball_option_finite
    by (assumption || apply no_negative_price_zero_ratio).
  do 4 f_equal. f_equal. apply map_ext_in. intros i Hi. apply in_seq in Hi.
  apply draw_payoff_zero_ratio; assumption || lia.
Qed.



(** C10: on valid arguments with [k = 0] the returned price does not depend
    on the draws: two runs that differ only in the variates return the
    same price. *)
Theorem zero_ratio_ignores_draws S X T r q sigma p n draw draw' :
  valid_inputs S X T sigma n ->
  snowball_option S X T r q sigma 0 p n draw
  = snowball_option S X T r q sigma 0 p n draw'.
Proof.
  intros (HS & HX & HT & Hs & Hn).
  rewrite !snowball_option_zero_ratio by assumption. reflexivity.
Qed.

Lemma zero_ratio_ignores_draws_witness :
  valid_inputs 100 100 1 (2 / 10) 5
  /\ snowball_option 100 100 1 (5 / 100) 0 (2 / 10) 0 (1 / 2) 5 (fun _ => 0)
     = snowball_option 100 100 1 (5 / 100) 0 (2 / 10) 0 (1 / 2) 5 (fun i => INR i - 2).
Proof.
  assert (H : valid_inputs 100 100 1 (2 / 10) 5)
    by (unfold valid_inputs; repeat split; lra || lia).
  split; [exact H |].
  apply (zero_ratio_ignores_draws 100 100 1 (5 / 100) 0 (2 / 10) (1 / 2) 5 _ _ H).
Defined.

(** ** The convexity bound *)









(** * Further properties of [snowball_option] *)

(** ** The two arrays *)

Lemma array_set_length (a : array) (i : nat) (v : float64) (a' : array) :
  array_set a i v = Ok a' -> length a' = length a.
Proof.
  revert i a'. induction a as [| h t IH]; intros i a' H; simpl in H.
  - discriminate.
  - destruct i as [| i].
    + injection H as <-. reflexivity.
    + destruct (array_set t i v) as [t' |] eqn:E; [| discriminate].
      cbn [bind] in H. injection H as <-. simpl. f_equal. exact (IH i t' E).
Qed.

Lemma array_set_in_range (a : array) (i : nat) (v : float64) :
  (i < length a)%nat -> exists a', array_set a i v = Ok a'.
Proof.
  revert i. induction a as [| h t IH]; intros i Hi; simpl in Hi; [lia |].
  destruct i as [| i]; simpl.
  - eexists. reflexivity.
  - destruct (IH i ltac:(lia)) as [t' E]. rewrite E. eexists. reflexivity.
Qed.

Lemma loop_body_length S X T r q sigma k n draw i ps vs ps' vs' :
  loop_body S X T r q sigma k n draw i (ps, vs) = Ok (ps', vs') ->
  length ps' = length ps /\ length vs' = length vs.
Proof.
  unfold loop_body. intros H.
  destruct (simulate_draw S X T r q sigma k n draw i) as [[s v] |]; [| discriminate].
  cbn [bind] in H.
  destruct (array_set ps i s) as [ps1 |] eqn:E1; [| discriminate].
  cbn [bind] in H.
  destruct (array_set vs i v) as [vs1 |] eqn:E2; [| discriminate].
  cbn [bind] in H. injection H as <- <-.
  split; eapply array_set_length; eassumption.
Qed.

Lemma for_range_length S X T r q sigma k n draw count :
  forall start ps vs ps' vs',
    for_range (loop_body S X T r q sigma k n draw) start count (ps, vs)
    = Ok (ps', vs') ->
    length ps' = length ps /\ length vs' = length vs.
Proof.
  induction count as [| count IH]; intros start ps vs ps' vs' H; cbn [for_range] in H.
  - injection H as <- <-. split; reflexivity.
  - destruct (loop_body S X T r q sigma k n draw start (ps, vs)) as [[ps1 vs1] |] eqn:E;
      [| discriminate].
    cbn [bind] in H.
    destruct (loop_body_length _ _ _ _ _ _ _ _ _ _ _ _ _ _ E) as [L1 L2].
    destruct (IH _ _ _ _ _ H) as [L3 L4]. split; congruence.
Qed.

(** X1: whatever the arguments, when the loop of lines 59-71 completes both
    arrays have exactly [n_simulations] entries. *)
Theorem simulate_lengths S X T r q sigma k n draw prices values :
  simulate S X T r q sigma k n draw = Ok (prices, values) ->
  length prices = Z.to_nat n /\ length values = Z.to_nat n.
Proof.
  unfold simulate, np_zeros. intros H.
  destruct (Z.ltb_spec n 0) as [_ | _]; [discriminate |].
  cbn [bind] in H.
  destruct (for_range_length _ _ _ _ _ _ _ _ _ _ _ _ _ _ _ H) as [L1 L2].
  rewrite repeat_length in L1, L2. split; assumption.
Qed.

Lemma simulate_lengths_witness :
  exists prices values,
    simulate 1 1 1 0 0 1 (1 / 2) 3 (fun _ => 0) = Ok (prices, values)
    /\ length prices = 3%nat /\ length values = 3%nat.
Proof.
  destruct (simulate_no_raise 1 1 1 0 0 1 (1 / 2) 3 (fun _ => 0))
    as (prices & values & E & _); [lra | lra | lra | lia |].
  exists prices, values. split; [exact E |].
  exact (simulate_lengths 1 1 1 0 0 1 (1 / 2) 3 (fun _ => 0) prices values E).
Defined.

Lemma simulate_draw_error S X T r q sigma k n draw i e :
  simulate_draw S X T r q sigma k n draw i = Raise e -> e <> IndexError.
Proof.
  unfold simulate_draw, np_random_normal, py_div. intros H.
  destruct (Fin sigma * np_sqrt (Fin (T / 365)))%fl as [s | | |]; cbn [bind] in H.
  - destruct (Rsign s); cbn [bind] in H.
    + injection H as <-. discriminate.
    + destruct (Rsign X); cbn [bind] in H; try discriminate.
      injection H as <-. discriminate.
    + destruct (Rsign X); cbn [bind] in H; try discriminate.
      injection H as <-. discriminate.
  - destruct (Rsign X); cbn [bind] in H; try discriminate.
    injection H as <-. discriminate.
  - injection H as <-. discriminate.
  - destruct (Rsign X); cbn [bind] in H; try discriminate.
    injection H as <-. discriminate.
Qed.

Lemma for_range_in_bounds S X T r q sigma k n draw count :
  forall start ps vs,
    length ps = (start + count)%nat -> length vs = (start + count)%nat ->
    for_range (loop_body S X T r q sigma k n draw) start count (ps, vs)
    <> Raise IndexError.
Proof.
  induction count as [| count IH]; intros start ps vs Lp Lv; cbn [for_range].
  - discriminate.
  - unfold loop_body at 1.
    destruct (simulate_draw S X T r q sigma k n draw start) as [[s v] | e] eqn:E.
    + cbn [bind].
      destruct (array_set_in_range ps start s ltac:(lia)) as [ps1 E1].
      destruct (array_set_in_range vs start v ltac:(lia)) as [vs1 E2].
      rewrite E1. cbn [bind]. rewrite E2. cbn [bind].
      apply IH.
      * rewrite (array_set_length _ _ _ _ E1). lia.
      * rewrite (array_set_length _ _ _ _ E2). lia.
    + cbn [bind]. intros H. injection H as ->.
      exact (simulate_draw_error _ _ _ _ _ _ _ _ _ _ _ E eq_refl).
Qed.

(** X2: whatever the arguments, the stores [prices[i] = S_i] and
    [values[i] = value_i] are within bounds: the function never raises an
    [IndexError]. *)
Theorem snowball_option_stores_in_bounds S X T r q sigma k p n draw :
  snowball_option S X T r q sigma k p n draw <> Raise IndexError.
Proof.
  unfold snowball_option, call_price.
  unfold py_div. destruct (Rsign X); cbn [bind]; try discriminate.
  - unfold simulate, np_zeros.
    destruct (Z.ltb_spec n 0) as [_ | _]; cbn [bind]; [discriminate |].
    destruct (for_range _ _ _ _) as [[ps vs] | e] eqn:E; cbn [bind]; [discriminate |].
    intros H. injection H as ->. revert E.
    apply for_range_in_bounds; rewrite repeat_length; reflexivity.
  - unfold simulate, np_zeros.
    destruct (Z.ltb_spec n 0) as [_ | _]; cbn [bind]; [discriminate |].
    destruct (for_range _ _ _ _) as [[ps vs] | e] eqn:E; cbn [bind]; [discriminate |].
    intros H. injection H as ->. revert E.
    apply for_range_in_bounds; rewrite repeat_length; reflexivity.
Qed.

(** ** A negative volatility *)



(** ** Bounds of the prices *)





(** ** Special ratios *)









(** ** Scaling spot and strike together *)







(** ** Maturity zero *)






(** ** A spot that is not positive *)





(** ** A draw that wipes the price out *)


